(** * MoluscoYield: a shallow embedding of the Anchor program
    [programs/moluscoyield/src/lib.rs] and proofs about its ledger.

    Modelling choices.
    - A [Pubkey] is a [Z].  Program-derived addresses are modelled by their
      seeds: the hash is taken to be collision free, so an address is the
      tuple of the seed material it is derived from.  The seeds of a
      position are concatenated byte strings on chain, so the protocol and
      asset seeds enter the address as the single string [protocol ++ asset].
    - The accounts of the program form a [State]: one [gmap] for the [Vault]
      accounts and one for the [Position] accounts.  A Solana transaction is
      all-or-nothing: a failing instruction leaves the state as it was
      ([apply_tx]).
    - The integer arithmetic [a += b] / [a -= b] on [u64]/[u16] panics on
      overflow when the crate is built with overflow checks and wraps
      otherwise; the build profile is a parameter [OverflowMode].
    - Anchor's account validation is modelled in the order of the generated
      [try_accounts]: accounts are loaded ([AccountNotInitialized] when the
      account does not exist), [init] accounts are created
      ([AccountAlreadyInUse] when the address is taken), then [constraint]s
      are checked ([ConstraintRaw]); the handler runs, and [exit] writes the
      accounts back ([AccountDidNotSerialize] when the data does not fit the
      reserved space) or closes those marked [close].
    - The PDA bump seeds are not modelled: nothing below reads them. *)

From Stdlib Require Import ZArith Lia.
From stdpp Require Import base gmap strings list.

Open Scope Z_scope.

Module Molusco.

Abbreviation Pubkey := Z (only parsing).

(** ** Errors and the result of an instruction *)

(** Errors raised by the Anchor framework in account validation. *)
Inductive AnchorError :=
| AccountNotInitialized
| ConstraintRaw
| AccountDidNotSerialize.

(** Errors of the system program (account creation by [init]). *)
Inductive SystemError :=
| AccountAlreadyInUse.

(** [#[error_code] pub enum MoluscoError] *)
Inductive MoluscoError :=
| InvalidApy
| PositionClosed
| InsufficientBalance.

Inductive Error :=
| Anchor (e : AnchorError)
| System (e : SystemError)
| Molusco (e : MoluscoError).

(** A computation of the program: it returns, fails with an error value,
    or aborts with a Rust panic. *)
Inductive Res (A : Type) :=
| Ret (a : A)
| Throw (e : Error)
| Panic.
Arguments Ret {A} a.
Arguments Throw {A} e.
Arguments Panic {A}.

Definition bind {A B} (m : Res A) (k : A -> Res B) : Res B :=
  match m with
  | Ret a => k a
  | Throw e => Throw e
  | Panic => Panic
  end.

Notation "'let*' x ':=' m 'in' k" := (bind m (fun x => k))
  (at level 200, x name, m at level 100, k at level 200).

(** [constraint = cond] of [#[account(...)]] *)
Definition constraint (cond : bool) : Res unit :=
  if cond then Ret tt else Throw (Anchor ConstraintRaw).

(** ** Machine integers *)

Inductive OverflowMode :=
| OverflowChecks   (** [overflow-checks = true]: overflow panics *)
| Wrapping.        (** no overflow checks: two's complement wrap-around *)

Definition fits_width (w r : Z) : bool := (0 <=? r) && (r <? 2 ^ w).

(** The result [r] of an unsigned [w]-bit operation. *)
Definition arith (m : OverflowMode) (w r : Z) : Res Z :=
  if fits_width w r then Ret r
  else match m with
       | OverflowChecks => Panic
       | Wrapping => Ret (r mod 2 ^ w)
       end.

(** [a += b] and [a -= b] on a [w]-bit unsigned integer. *)
Definition add_assign (m : OverflowMode) (w a b : Z) : Res Z := arith m w (a + b).
Definition sub_assign (m : OverflowMode) (w a b : Z) : Res Z := arith m w (a - b).

(** [u64::saturating_sub]: [checked_sub] or else [0]. *)
Definition saturating_sub (a b : Z) : Z := if b <=? a then a - b else 0.

(** [x as u8] *)
Definition as_u8 (x : Z) : Z := Z.land x 255.

(** ** Accounts *)

(** [#[account] pub struct Vault] (the [bump] field is not modelled). *)
Module Vault.
Record t := mk {
  owner : Pubkey;
  agent_name : string;
  total_value_locked : Z;   (** u64 *)
  position_count : Z;       (** u16 *)
  created_at : Z;           (** i64 *)
  last_rebalance : Z        (** i64 *)
}.

(** [Vault::SIZE] *)
Definition SIZE : Z := 32 + 4 + 32 + 8 + 2 + 8 + 8 + 1.

(** Length of the Borsh encoding of a vault. *)
Definition serialized_len (v : t) : Z :=
  32 + (4 + Z.of_nat (String.length (agent_name v))) + 8 + 2 + 8 + 8 + 1.
End Vault.

(** Vault address: seeds [b"vault", owner, agent_name]. *)
Abbreviation VaultAddr := (Pubkey * string)%type (only parsing).

(** [#[account] pub struct Position] (the [bump] field is not modelled). *)
Module Position.
Record t := mk {
  owner : Pubkey;
  vault : Pubkey * string;
  protocol : string;
  strategy : string;
  asset : string;
  amount : Z;               (** u64 *)
  target_apy : Z;           (** u16 *)
  opened_at : Z;            (** i64 *)
  last_update : Z;          (** i64 *)
  is_active : bool;
  accumulated_yield : Z     (** u64 *)
}.

(** [Position::SIZE] *)
Definition SIZE : Z :=
  32 + 32 + (4 + 16) + (4 + 20) + (4 + 10) + 8 + 2 + 8 + 8 + 1 + 8 + 1.

Definition serialized_len (p : t) : Z :=
  32 + 32 + (4 + Z.of_nat (String.length (protocol p)))
  + (4 + Z.of_nat (String.length (strategy p)))
  + (4 + Z.of_nat (String.length (asset p))) + 8 + 2 + 8 + 8 + 1 + 8 + 1.
End Position.

(** The slot seed of a new position: [vault.position_count as u8]. *)
Definition next_slot (v : Vault.t) : Z := as_u8 (Vault.position_count v).

(** Position address: seeds [b"position", vault, protocol, asset,
    [vault.position_count as u8]]; the protocol and asset seeds are
    concatenated. *)
Abbreviation PosAddr := ((Pubkey * string) * string * Z)%type (only parsing).

Definition position_address (va : Pubkey * string) (protocol asset : string)
    (slot : Z) : (Pubkey * string) * string * Z :=
  (va, String.append protocol asset, slot).

Record State := mkState {
  vaults : gmap (Pubkey * string) Vault.t;
  positions : gmap ((Pubkey * string) * string * Z) Position.t
}.

Definition empty_state : State := mkState ∅ ∅.

(** [msg!] lines of the program log. *)
Inductive LogMsg :=
| LogVaultInitialized (agent_name : string)
| LogPositionOpened (asset protocol : string)
| LogPositionUpdated (yield_earned : Z)
| LogPositionClosed (total_yield : Z)
| LogRebalanceRecorded (timestamp : Z).

(** What a successful instruction hands back: the new accounts, the log,
    and the return data ([None]: every handler returns [Result<()>]). *)
Record Receipt := mkReceipt {
  post : State;
  logs : list LogMsg;
  return_data : option Z
}.

(** [find_program_address] panics when a seed exceeds [MAX_SEED_LEN = 32]. *)
Definition seeds_ok (seeds : list string) : Res unit :=
  if forallb (fun sd => Nat.leb (String.length sd) 32) seeds then Ret tt else Panic.

(** [exit]: writing an account back fails if it does not fit its space. *)
Definition exit_vault (v : Vault.t) : Res unit :=
  if Vault.serialized_len v <=? Vault.SIZE then Ret tt
  else Throw (Anchor AccountDidNotSerialize).

Definition exit_position (p : Position.t) : Res unit :=
  if Position.serialized_len p <=? Position.SIZE then Ret tt
  else Throw (Anchor AccountDidNotSerialize).

(** ** Instructions *)

(** [initialize_vault]: [init] the vault at seeds
    [b"vault", owner, agent_name], then the handler. *)
Definition initialize_vault (s : State) (owner : Pubkey) (agent_name : string)
    (now : Z) : Res Receipt :=
  let* _ := seeds_ok [agent_name] in
  let va := (owner, agent_name) in
  match vaults s !! va with
  | Some _ => Throw (System AccountAlreadyInUse)
  | None =>
      let v := {| Vault.owner := owner;
                  Vault.agent_name := agent_name;
                  Vault.total_value_locked := 0;
                  Vault.position_count := 0;
                  Vault.created_at := now;
                  Vault.last_rebalance := 0 |} in
      let* _ := exit_vault v in
      Ret {| post := mkState (<[va := v]> (vaults s)) (positions s);
             logs := [LogVaultInitialized agent_name];
             return_data := None |}
  end.

(** [open_position]: load [vault], [init] the position at seeds
    [b"position", vault, protocol, asset, [vault.position_count as u8]],
    check [vault.owner == owner.key()], run the handler, write back. *)
Definition open_position (m : OverflowMode) (s : State) (owner : Pubkey)
    (vault_key : Pubkey * string) (protocol strategy asset : string)
    (amount target_apy now : Z) : Res Receipt :=
  match vaults s !! vault_key with
  | None => Throw (Anchor AccountNotInitialized)
  | Some vault =>
      let* _ := seeds_ok [protocol; asset] in
      let pa := position_address vault_key protocol asset (next_slot vault) in
      match positions s !! pa with
      | Some _ => Throw (System AccountAlreadyInUse)
      | None =>
          let* _ := constraint (Vault.owner vault =? owner) in
          let position := {| Position.owner := owner;
                             Position.vault := vault_key;
                             Position.protocol := protocol;
                             Position.strategy := strategy;
                             Position.asset := asset;
                             Position.amount := amount;
                             Position.target_apy := target_apy;
                             Position.opened_at := now;
                             Position.last_update := now;
                             Position.is_active := true;
                             Position.accumulated_yield := 0 |} in
          let* position_count := add_assign m 16 (Vault.position_count vault) 1 in
          let* total_value_locked := add_assign m 64 (Vault.total_value_locked vault) amount in
          let vault' := {| Vault.owner := Vault.owner vault;
                           Vault.agent_name := Vault.agent_name vault;
                           Vault.total_value_locked := total_value_locked;
                           Vault.position_count := position_count;
                           Vault.created_at := Vault.created_at vault;
                           Vault.last_rebalance := Vault.last_rebalance vault |} in
          let* _ := exit_position position in
          Ret {| post := mkState (<[vault_key := vault']> (vaults s))
                                 (<[pa := position]> (positions s));
                 logs := [LogPositionOpened asset protocol];
                 return_data := None |}
      end
  end.

(** [update_position]: load [position], check [position.owner == owner.key()],
    run the handler.  Writing the position back cannot fail: its strings are
    those it was stored with. *)
Definition update_position (m : OverflowMode) (s : State) (owner : Pubkey)
    (position_key : (Pubkey * string) * string * Z) (current_value now : Z)
    : Res Receipt :=
  match positions s !! position_key with
  | None => Throw (Anchor AccountNotInitialized)
  | Some position =>
      let* _ := constraint (Position.owner position =? owner) in
      let yield_earned := saturating_sub current_value (Position.amount position) in
      let* accumulated_yield :=
        add_assign m 64 (Position.accumulated_yield position) yield_earned in
      let position' := {| Position.owner := Position.owner position;
                          Position.vault := Position.vault position;
                          Position.protocol := Position.protocol position;
                          Position.strategy := Position.strategy position;
                          Position.asset := Position.asset position;
                          Position.amount := Position.amount position;
                          Position.target_apy := Position.target_apy position;
                          Position.opened_at := Position.opened_at position;
                          Position.last_update := now;
                          Position.is_active := Position.is_active position;
                          Position.accumulated_yield := accumulated_yield |} in
      Ret {| post := mkState (vaults s) (<[position_key := position']> (positions s));
             logs := [LogPositionUpdated yield_earned];
             return_data := None |}
  end.

(** [close_position]: load [vault] and [position], check
    [vault.owner == owner.key()], [position.owner == owner.key()] and
    [position.vault == vault.key()], run the handler, write the vault back
    and close the position ([close = owner] deletes the account). *)
Definition close_position (m : OverflowMode) (s : State) (owner : Pubkey)
    (vault_key : Pubkey * string) (position_key : (Pubkey * string) * string * Z)
    : Res Receipt :=
  match vaults s !! vault_key with
  | None => Throw (Anchor AccountNotInitialized)
  | Some vault =>
      match positions s !! position_key with
      | None => Throw (Anchor AccountNotInitialized)
      | Some position =>
          let* _ := constraint (Vault.owner vault =? owner) in
          let* _ := constraint (Position.owner position =? owner) in
          let* _ := constraint (bool_decide (Position.vault position = vault_key)) in
          let position' := {| Position.owner := Position.owner position;
                              Position.vault := Position.vault position;
                              Position.protocol := Position.protocol position;
                              Position.strategy := Position.strategy position;
                              Position.asset := Position.asset position;
                              Position.amount := Position.amount position;
                              Position.target_apy := Position.target_apy position;
                              Position.opened_at := Position.opened_at position;
                              Position.last_update := Position.last_update position;
                              Position.is_active := false;
                              Position.accumulated_yield :=
                                Position.accumulated_yield position |} in
          let* position_count := sub_assign m 16 (Vault.position_count vault) 1 in
          let* total_value_locked :=
            sub_assign m 64 (Vault.total_value_locked vault) (Position.amount position') in
          let vault' := {| Vault.owner := Vault.owner vault;
                           Vault.agent_name := Vault.agent_name vault;
                           Vault.total_value_locked := total_value_locked;
                           Vault.position_count := position_count;
                           Vault.created_at := Vault.created_at vault;
                           Vault.last_rebalance := Vault.last_rebalance vault |} in
          Ret {| post := mkState (<[vault_key := vault']> (vaults s))
                                 (delete position_key
                                    (<[position_key := position']> (positions s)));
                 logs := [LogPositionClosed (Position.accumulated_yield position')];
                 return_data := None |}
      end
  end.

(** [record_rebalance]: load [vault], check [vault.owner == owner.key()]. *)
Definition record_rebalance (s : State) (owner : Pubkey)
    (vault_key : Pubkey * string) (now : Z) : Res Receipt :=
  match vaults s !! vault_key with
  | None => Throw (Anchor AccountNotInitialized)
  | Some vault =>
      let* _ := constraint (Vault.owner vault =? owner) in
      let vault' := {| Vault.owner := Vault.owner vault;
                       Vault.agent_name := Vault.agent_name vault;
                       Vault.total_value_locked := Vault.total_value_locked vault;
                       Vault.position_count := Vault.position_count vault;
                       Vault.created_at := Vault.created_at vault;
                       Vault.last_rebalance := now |} in
      Ret {| post := mkState (<[vault_key := vault']> (vaults s)) (positions s);
             logs := [LogRebalanceRecorded now];
             return_data := None |}
  end.

(** ** Transactions *)

(** One instruction of the program, with its signer and arguments. *)
Inductive Instr :=
| InitializeVault (owner : Pubkey) (agent_name : string) (now : Z)
| OpenPosition (owner : Pubkey) (vault_key : Pubkey * string)
    (protocol strategy asset : string) (amount target_apy now : Z)
| UpdatePosition (owner : Pubkey) (position_key : (Pubkey * string) * string * Z)
    (current_value now : Z)
| ClosePosition (owner : Pubkey) (vault_key : Pubkey * string)
    (position_key : (Pubkey * string) * string * Z)
| RecordRebalance (owner : Pubkey) (vault_key : Pubkey * string) (now : Z).

Definition step (m : OverflowMode) (s : State) (i : Instr) : Res Receipt :=
  match i with
  | InitializeVault o n t => initialize_vault s o n t
  | OpenPosition o va p st a amt apy t => open_position m s o va p st a amt apy t
  | UpdatePosition o pa cv t => update_position m s o pa cv t
  | ClosePosition o va pa => close_position m s o va pa
  | RecordRebalance o va t => record_rebalance s o va t
  end.

(** A transaction either commits all its writes or none. *)
Definition apply_tx (m : OverflowMode) (s : State) (i : Instr) : State :=
  match step m s i with
  | Ret r => post r
  | _ => s
  end.

(** The states after each instruction of a sequence. *)
Fixpoint trace (m : OverflowMode) (s : State) (is : list Instr) : list State :=
  match is with
  | [] => []
  | i :: is' => let s' := apply_tx m s i in s' :: trace m s' is'
  end.

Definition run (m : OverflowMode) (s : State) (is : list Instr) : State :=
  fold_left (apply_tx m) is s.

(** ** The ledger invariant *)

Definition counts_for (va : Pubkey * string) (p : Position.t) : bool :=
  bool_decide (Position.vault p = va) && Position.is_active p.

Definition active_in (P : gmap ((Pubkey * string) * string * Z) Position.t)
    (va : Pubkey * string) : list Position.t :=
  List.filter (counts_for va) (map snd (map_to_list P)).

(** The active positions of vault [va]. *)
Definition active_positions (s : State) (va : Pubkey * string) : list Position.t :=
  active_in (positions s) va.

Definition sum_amount (l : list Position.t) : Z :=
  fold_right (fun p acc => Position.amount p + acc) 0 l.


(** The value a [w]-bit counter holds for the mathematical value [x]. *)
Definition reduce (m : OverflowMode) (w x : Z) : Z :=
  match m with
  | OverflowChecks => x
  | Wrapping => x mod 2 ^ w
  end.

(** Every stored position is active and belongs to an existing vault, and a
    vault's aggregates are the sum of amounts and the number of its active
    positions (as held in a [u64] and a [u16]). *)
Definition ledger_inv (m : OverflowMode) (s : State) : Prop :=
  (forall pa p, positions s !! pa = Some p ->
     Position.is_active p = true /\ vaults s !! Position.vault p <> None) /\
  (forall va v, vaults s !! va = Some v ->
     Vault.total_value_locked v = reduce m 64 (sum_amount (active_positions s va)) /\
     Vault.position_count v =
       reduce m 16 (Z.of_nat (length (active_positions s va)))).

(** The claim's reading: exact equalities at every vault. *)
Definition aggregates_exact (s : State) : Prop :=
  forall va v, vaults s !! va = Some v ->
    Vault.total_value_locked v = sum_amount (active_positions s va) /\
    Vault.position_count v = Z.of_nat (length (active_positions s va)).

(** With wrap-around, the aggregates agree modulo the width of the field. *)
Definition aggregates_wrapped (s : State) : Prop :=
  forall va v, vaults s !! va = Some v ->
    Vault.total_value_locked v = sum_amount (active_positions s va) mod 2 ^ 64 /\
    Vault.position_count v = Z.of_nat (length (active_positions s va)) mod 2 ^ 16.

(** ** Concrete inputs *)

(** The vault of the spec's scenario: owner [1], agent ["agent1"]. *)
Definition agent1 : Pubkey * string := (1, "agent1"%string).

Definition jito_slot (slot : Z) : (Pubkey * string) * string * Z :=
  position_address agent1 "JitoSOL" "SOL" slot.

Definition open_jito (amount now : Z) : Instr :=
  OpenPosition 1 agent1 "JitoSOL" "Liquid Staking" "SOL" amount 800 now.

(** The scenario of the spec: a vault, then a position of 1 SOL. *)
Definition tx_scenario : list Instr :=
  [InitializeVault 1 "agent1" 100; open_jito 1000000000 101].

(** Two opens whose amounts sum to [2^64]. *)
Definition tx_tvl_overflow : list Instr :=
  [InitializeVault 1 "agent1" 100; open_jito (2 ^ 64 - 1) 101].

(** [total_value_locked] wrapped to [0] with positions of [2^64 - 1] and [1]. *)
Definition tx_tvl_wrapped : list Instr := tx_tvl_overflow ++ [open_jito 1 102].

(** A position of [0] lamports valued at [u64::MAX]: its accumulated yield
    reaches [2^64 - 1]. *)
Definition tx_yield_max : list Instr :=
  [InitializeVault 1 "agent1" 100; open_jito 0 101;
   UpdatePosition 1 (jito_slot 0) (2 ^ 64 - 1) 102].

(** The scenario, then close the position and open another one. *)
Definition tx_reopen : list Instr :=
  tx_scenario ++ [ClosePosition 1 agent1 (jito_slot 0); open_jito 2000000000 103].

(** The scenario after the update to 1.05 SOL. *)
Definition tx_scenario_updated : list Instr :=
  tx_scenario ++ [UpdatePosition 1 (jito_slot 0) 1050000000 102].

(** The slot seeds used by the successful [open_position]s of a sequence. *)
Fixpoint opened_slots (m : OverflowMode) (s : State) (is : list Instr) : list Z :=
  match is with
  | [] => []
  | i :: is' =>
      let here :=
        match i with
        | OpenPosition _ va _ _ _ _ _ _ =>
            match step m s i, vaults s !! va with
            | Ret _, Some v => [next_slot v]
            | _, _ => []
            end
        | _ => []
        end in
      here ++ opened_slots m (apply_tx m s i) is'
  end.

(** A second vault of owner [1]. *)
Definition agent2 : Pubkey * string := (1, "agent2"%string).

(** Open slots [0] and [1], close slot [0]: the count is back to [1], the
    slot of the still open second position. *)
Definition tx_slot_collision : list Instr :=
  tx_scenario ++ [open_jito 2000000000 102; ClosePosition 1 agent1 (jito_slot 0)].

(** The scenario with a second vault of the same owner. *)
Definition tx_two_vaults : list Instr :=
  tx_scenario ++ [InitializeVault 1 "agent2" 103].







(** A protocol name of 30 bytes, with a short strategy and asset. *)
Definition long_protocol : string := "ProtocolNameOfThirtyBytesLong1".

(** ** Basic facts about the result monad and the arithmetic *)

(** ** Frame and address invariants *)

(** The vault an instruction names, if any. *)
Definition instr_vault (i : Instr) : option (Pubkey * string) :=
  match i with
  | InitializeVault o n _ => Some (o, n)
  | OpenPosition _ va _ _ _ _ _ _ => Some va
  | UpdatePosition _ _ _ _ => None
  | ClosePosition _ va _ => Some va
  | RecordRebalance _ va _ => Some va
  end.

(** Every vault is stored at the address of its seeds, and every position
    under the vault it records, which belongs to the position's owner. *)
Definition ownership_inv (s : State) : Prop :=
  (forall va v, vaults s !! va = Some v -> va = (Vault.owner v, Vault.agent_name v)) /\
  (forall pa p, positions s !! pa = Some p ->
     pa.1.1 = Position.vault p /\
     exists v, vaults s !! Position.vault p = Some v /\
               Vault.owner v = Position.owner p).

(** Every position sits at the address of its own seeds, with a one-byte
    slot. *)
Definition address_inv (s : State) : Prop :=
  forall pa p, positions s !! pa = Some p ->
    exists slot, 0 <= slot < 256 /\
      pa = position_address (Position.vault p) (Position.protocol p) (Position.asset p) slot.

(** A placeholder position, for reading lookups. *)
Definition position_of_default : Position.t :=
  Position.mk 0 (0, EmptyString) EmptyString EmptyString EmptyString 0 0 0 0 false 0.

(** The receipt of a successful instruction, or [d]. *)
Definition ret_or (d : Receipt) (x : Res Receipt) : Receipt :=
  match x with Ret r => r | _ => d end.

Lemma bind_ret {A B} (c : Res A) (k : A -> Res B) b :
  bind c k = Ret b -> exists a, c = Ret a /\ k a = Ret b.
Proof. destruct c; simpl; [eauto | discriminate | discriminate]. Qed.

Lemma constraint_ret b u : constraint b = Ret u -> b = true.
Proof. unfold constraint. destruct b; [reflexivity | discriminate]. Qed.

Ltac inv_bind H :=
  let a := fresh "x" in
  let Hc := fresh "Hc" in
  apply bind_ret in H; destruct H as (a & Hc & H).

Ltac inv_bind_as H a Hc :=
  apply bind_ret in H; destruct H as (a & Hc & H).

Lemma arith_reduce m w r x c :
  0 <= w -> arith m w r = Ret x -> r mod 2 ^ w = c mod 2 ^ w ->
  (m = OverflowChecks -> r = c) -> x = reduce m w c.
Proof.
  intros Hw Ha Hmod Hchk. unfold arith, fits_width in Ha.
  assert (0 < 2 ^ w) by (apply Z.pow_pos_nonneg; lia).
  destruct m; simpl.
  - destruct ((0 <=? r) && (r <? 2 ^ w)); [|discriminate].
    injection Ha as <-. auto.
  - destruct ((0 <=? r) && (r <? 2 ^ w)) eqn:Hf.
    + injection Ha as <-. apply andb_prop in Hf as [H1 H2].
      apply Z.leb_le in H1. apply Z.ltb_lt in H2.
      rewrite <- Hmod. symmetry. apply Z.mod_small. lia.
    + injection Ha as <-. exact Hmod.
Qed.

Lemma add_assign_reduce m w a b x c :
  0 <= w -> add_assign m w a b = Ret x -> a = reduce m w c -> x = reduce m w (c + b).
Proof.
  intros Hw Ha ->. apply (arith_reduce m w _ _ _ Hw Ha).
  - destruct m; simpl; [reflexivity|]. apply Z.add_mod_idemp_l.
    apply Z.pow_nonzero; lia.
  - intros ->. reflexivity.
Qed.

Lemma add_assign_ret m w a b x :
  0 <= w -> add_assign m w a b = Ret x -> x = reduce m w (a + b).
Proof.
  intros Hw Ha. apply (arith_reduce m w _ _ _ Hw Ha); reflexivity.
Qed.

Lemma saturating_sub_max a b : saturating_sub a b = Z.max 0 (a - b).
Proof. unfold saturating_sub. destruct (Z.leb_spec b a); lia. Qed.

Lemma sub_assign_reduce m w a b x c :
  0 <= w -> sub_assign m w a b = Ret x -> a = reduce m w c -> x = reduce m w (c - b).
Proof.
  intros Hw Ha ->. apply (arith_reduce m w _ _ _ Hw Ha).
  - destruct m; simpl; [reflexivity|]. apply Zminus_mod_idemp_l.
  - intros ->. reflexivity.
Qed.

(** ** Active positions under map updates *)

Lemma filter_perm (f : Position.t -> bool) (l1 l2 : list Position.t) :
  l1 ≡ₚ l2 -> List.filter f l1 ≡ₚ List.filter f l2.
Proof.
  induction 1 as [|x l1 l2 _ IH|x y l|l1 l2 l3 _ IH1 _ IH2]; simpl.
  - constructor.
  - destruct (f x); [apply perm_skip|]; exact IH.
  - destruct (f x), (f y); try apply perm_swap; reflexivity.
  - etrans; eauto.
Qed.

Lemma sum_amount_perm (l1 l2 : list Position.t) :
  l1 ≡ₚ l2 -> sum_amount l1 = sum_amount l2.
Proof. induction 1; simpl; lia. Qed.

Definition cons_if (b : bool) (p : Position.t) (l : list Position.t) :=
  if b then p :: l else l.

Lemma active_in_insert_fresh P k p va :
  P !! k = None ->
  active_in (<[k := p]> P) va ≡ₚ cons_if (counts_for va p) p (active_in P va).
Proof.
  intros Hk. unfold active_in.
  etrans.
  - apply filter_perm, Permutation_map, map_to_list_insert, Hk.
  - simpl. unfold cons_if. destruct (counts_for va p); reflexivity.
Qed.

Lemma active_in_delete P k p va :
  P !! k = Some p ->
  active_in P va ≡ₚ cons_if (counts_for va p) p (active_in (delete k P) va).
Proof.
  intros Hk. unfold active_in.
  etrans.
  - apply filter_perm, Permutation_map. symmetry. apply map_to_list_delete, Hk.
  - simpl. unfold cons_if. destruct (counts_for va p); reflexivity.
Qed.

Lemma active_in_absent P va :
  (forall k p, P !! k = Some p -> Position.vault p <> va) -> active_in P va = [].
Proof.
  intros Hall. unfold active_in.
  assert (Hin : forall p, In p (map snd (map_to_list P)) -> counts_for va p = false).
  { intros p Hp. apply in_map_iff in Hp as ([k p'] & <- & Hkp).
    rewrite <- list_elem_of_In, elem_of_map_to_list in Hkp.
    unfold counts_for. rewrite bool_decide_eq_false_2; [reflexivity|].
    exact (Hall _ _ Hkp). }
  induction (map snd (map_to_list P)) as [|q l IH]; simpl; [reflexivity|].
  rewrite (Hin q (or_introl eq_refl)). apply IH. intros p Hp. apply Hin. right. exact Hp.
Qed.


Lemma counts_for_true va p :
  Position.vault p = va -> Position.is_active p = true -> counts_for va p = true.
Proof.
  intros Hv Ha. unfold counts_for. rewrite Ha, bool_decide_eq_true_2 by exact Hv.
  reflexivity.
Qed.

Lemma counts_for_other va p :
  Position.vault p <> va -> counts_for va p = false.
Proof. intros Hv. unfold counts_for. rewrite bool_decide_eq_false_2 by exact Hv. reflexivity. Qed.

Lemma length_cons_if b p l :
  Z.of_nat (length (cons_if b p l)) = Z.of_nat (length l) + (if b then 1 else 0).
Proof. destruct b; simpl; lia. Qed.

Lemma sum_cons_if b p l :
  sum_amount (cons_if b p l) = sum_amount l + (if b then Position.amount p else 0).
Proof. destruct b; simpl; lia. Qed.

Lemma active_in_perm_sum_length P1 P2 va :
  active_in P1 va ≡ₚ active_in P2 va ->
  sum_amount (active_in P1 va) = sum_amount (active_in P2 va) /\
  length (active_in P1 va) = length (active_in P2 va).
Proof. intros H. split; [apply sum_amount_perm, H | apply Permutation_length, H]. Qed.

Ltac case_lookup H :=
  lazymatch type of H with
  | context [match ?M !! ?k with _ => _ end] =>
      let E := fresh "Hlk" in destruct (M !! k) eqn:E
  end.

(** ** Preservation of the invariant by each instruction *)

Lemma initialize_vault_inv m s o n t r :
  ledger_inv m s -> initialize_vault s o n t = Ret r -> ledger_inv m (post r).
Proof.
  intros [Hp Hv] H. unfold initialize_vault in H. cbv zeta in H.
  inv_bind H. case_lookup H; [discriminate|].
  inv_bind H. injection H as <-. unfold ledger_inv. cbn [post vaults positions]. split.
  - intros pa p Hpa. destruct (Hp pa p Hpa) as [Ha Hex]. split; [exact Ha|].
    rewrite lookup_insert. case_decide; [discriminate | exact Hex].
  - intros va v Hva. unfold active_positions. cbn [post vaults positions].
    rewrite lookup_insert in Hva. case_decide as Heq.
    + subst va. injection Hva as <-. simpl.
      rewrite active_in_absent; [destruct m; split; reflexivity|].
      intros k p Hk Hvp. destruct (Hp k p Hk) as [_ Hex]. rewrite Hvp in Hex. contradiction.
    + apply Hv, Hva.
Qed.

Lemma open_position_inv m s o va pr st a amt apy t r :
  ledger_inv m s -> open_position m s o va pr st a amt apy t = Ret r ->
  ledger_inv m (post r).
Proof.
  intros [Hp Hv] H. unfold open_position in H. cbv zeta in H.
  destruct (vaults s !! va) as [vault|] eqn:Hlk; [|discriminate].
  inv_bind H. case_lookup H; [discriminate|].
  inv_bind H. inv_bind_as H cnt Hcnt. inv_bind_as H tvl Htvl.
  inv_bind H. injection H as <-. unfold ledger_inv. cbn [post vaults positions]. split.
  - intros pa p Hpa. rewrite lookup_insert in Hpa. case_decide.
    + injection Hpa as <-. simpl. split; [reflexivity|].
      rewrite lookup_insert_eq. discriminate.
    + destruct (Hp pa p Hpa) as [Ha Hex]. split; [exact Ha|].
      rewrite lookup_insert. case_decide; [discriminate | exact Hex].
  - intros va' v Hva'. unfold active_positions. cbn [post vaults positions].
    rewrite (sum_amount_perm _ _ (active_in_insert_fresh _ _ _ va' Hlk0)).
    rewrite (Permutation_length (active_in_insert_fresh _ _ _ va' Hlk0)).
    rewrite sum_cons_if, length_cons_if.
    rewrite lookup_insert in Hva'. case_decide as Heq.
    + subst va'. injection Hva' as <-. simpl.
      rewrite counts_for_true by reflexivity. simpl.
      destruct (Hv _ _ Hlk) as [Htvl0 Hcnt0].
      split.
      * eapply add_assign_reduce; [lia | exact Htvl | exact Htvl0].
      * eapply add_assign_reduce; [lia | exact Hcnt | exact Hcnt0].
    + rewrite counts_for_other by (simpl; exact Heq).
      rewrite !Z.add_0_r. apply Hv, Hva'.
Qed.


Lemma active_in_replace P k p p' va :
  P !! k = Some p ->
  Position.vault p' = Position.vault p ->
  Position.is_active p' = Position.is_active p ->
  Position.amount p' = Position.amount p ->
  sum_amount (active_in (<[k := p']> P) va) = sum_amount (active_in P va) /\
  length (active_in (<[k := p']> P) va) = length (active_in P va).
Proof.
  intros Hk Hv Ha Hm.
  assert (Hc : counts_for va p' = counts_for va p) by (unfold counts_for; rewrite Hv, Ha; reflexivity).
  rewrite <- insert_delete_eq.
  pose proof (active_in_insert_fresh (delete k P) k p' va (lookup_delete_eq P k)) as H1.
  pose proof (active_in_delete P k p va Hk) as H2.
  rewrite (sum_amount_perm _ _ H1), (sum_amount_perm _ _ H2).
  rewrite (Permutation_length H1), (Permutation_length H2).
  rewrite Hc. unfold cons_if. destruct (counts_for va p); simpl; [rewrite Hm|]; split; reflexivity.
Qed.

Lemma update_position_inv m s o pa cv t r :
  ledger_inv m s -> update_position m s o pa cv t = Ret r -> ledger_inv m (post r).
Proof.
  intros [Hp Hv] H. unfold update_position in H. cbv zeta in H.
  destruct (positions s !! pa) as [p|] eqn:Hlk; [|discriminate].
  inv_bind H. inv_bind_as H acc Hacc. injection H as <-.
  unfold ledger_inv. cbn [post vaults positions]. split.
  - intros pa' q Hq. rewrite lookup_insert in Hq. case_decide.
    + injection Hq as <-. cbn. apply (Hp pa p Hlk).
    + apply (Hp pa' q Hq).
  - intros va v Hva. unfold active_positions. cbn [positions].
    match goal with
    | |- context [<[pa := ?q]> (positions s)] =>
        destruct (active_in_replace (positions s) pa p q va) as [E1 E2];
          [exact Hlk | reflexivity | reflexivity | reflexivity |]
    end.
    rewrite E1, E2. apply Hv, Hva.
Qed.

Lemma close_position_inv m s o va pa r :
  ledger_inv m s -> close_position m s o va pa = Ret r -> ledger_inv m (post r).
Proof.
  intros [Hp Hv] H. unfold close_position in H. cbv zeta in H.
  destruct (vaults s !! va) as [vault|] eqn:Hlv; [|discriminate].
  destruct (positions s !! pa) as [p|] eqn:Hlp; [|discriminate].
  inv_bind H. inv_bind H. inv_bind_as H u Hown.
  apply constraint_ret, bool_decide_eq_true in Hown.
  inv_bind_as H cnt Hcnt. inv_bind_as H tvl Htvl. injection H as <-.
  unfold ledger_inv. cbn [post vaults positions]. rewrite delete_insert_eq. split.
  - intros pa' q Hq. apply lookup_delete_Some in Hq as [_ Hq].
    destruct (Hp pa' q Hq) as [Ha Hex]. split; [exact Ha|].
    rewrite lookup_insert. case_decide; [discriminate | exact Hex].
  - intros va' v Hva'. unfold active_positions. cbn [positions].
    destruct (Hp pa p Hlp) as [Hact _].
    pose proof (active_in_delete (positions s) pa p va' Hlp) as Hperm.
    pose proof (sum_amount_perm _ _ Hperm) as Hs. rewrite sum_cons_if in Hs.
    pose proof (Permutation_length Hperm) as Hl.
    apply (f_equal Z.of_nat) in Hl. rewrite length_cons_if in Hl.
    rewrite lookup_insert in Hva'. case_decide as Heq.
    + subst va'. injection Hva' as <-. cbn.
      rewrite counts_for_true in Hs, Hl by assumption.
      destruct (Hv _ _ Hlv) as [T C]. unfold active_positions in T, C.
      split.
      * replace (sum_amount (active_in (delete pa (positions s)) va))
          with (sum_amount (active_in (positions s) va) - Position.amount p) by lia.
        eapply sub_assign_reduce; [lia | exact Htvl | exact T].
      * replace (Z.of_nat (length (active_in (delete pa (positions s)) va)))
          with (Z.of_nat (length (active_in (positions s) va)) - 1) by lia.
        eapply sub_assign_reduce; [lia | exact Hcnt | exact C].
    + rewrite counts_for_other in Hs, Hl by (rewrite Hown; exact Heq).
      rewrite Z.add_0_r in Hs, Hl. rewrite <- Hs, <- Hl. apply Hv, Hva'.
Qed.

Lemma record_rebalance_inv m s o va t r :
  ledger_inv m s -> record_rebalance s o va t = Ret r -> ledger_inv m (post r).
Proof.
  intros [Hp Hv] H. unfold record_rebalance in H. cbv zeta in H.
  destruct (vaults s !! va) as [vault|] eqn:Hlv; [|discriminate].
  inv_bind H. injection H as <-.
  unfold ledger_inv. cbn [post vaults positions]. split.
  - intros pa q Hq. destruct (Hp pa q Hq) as [Ha Hex]. split; [exact Ha|].
    rewrite lookup_insert. case_decide; [discriminate | exact Hex].
  - intros va' v Hva'. rewrite lookup_insert in Hva'. case_decide as Heq.
    + subst va'. injection Hva' as <-. cbn. apply (Hv _ _ Hlv).
    + apply Hv, Hva'.
Qed.

Lemma step_inv m s i r :
  ledger_inv m s -> step m s i = Ret r -> ledger_inv m (post r).
Proof.
  destruct i; simpl.
  - apply initialize_vault_inv.
  - apply open_position_inv.
  - apply update_position_inv.
  - apply close_position_inv.
  - apply record_rebalance_inv.
Qed.

Lemma apply_tx_inv m s i : ledger_inv m s -> ledger_inv m (apply_tx m s i).
Proof.
  intros Hs. unfold apply_tx. destruct (step m s i) eqn:E; try exact Hs.
  exact (step_inv m s i a Hs E).
Qed.

Lemma trace_inv m s is : ledger_inv m s -> Forall (ledger_inv m) (trace m s is).
Proof.
  revert s. induction is as [|i is IH]; intros s Hs; simpl; constructor.
  - apply apply_tx_inv, Hs.
  - apply IH, apply_tx_inv, Hs.
Qed.

Lemma empty_state_inv m : ledger_inv m empty_state.
Proof.
  split; intros ? ? H; simpl in H; rewrite lookup_empty in H; discriminate.
Qed.


(** ** C1: vault aggregates and active positions *)

(** C1 (amended).  Along every sequence of instructions from the empty
    ledger, after each instruction every vault's [total_value_locked] is the
    sum of [amount] over its active positions and its [position_count] is
    their number, when the crate is built with overflow checks (an overflowing
    [+=] panics and the transaction is rolled back); without overflow checks
    the two fields agree with these quantities modulo [2^64] and [2^16]. *)
Theorem vault_aggregates_match_active_positions (is : list Instr) :
  Forall aggregates_exact (trace OverflowChecks empty_state is) /\
  Forall aggregates_wrapped (trace Wrapping empty_state is).
Proof.
  split; (eapply Forall_impl; [apply trace_inv, empty_state_inv|]);
    intros s [_ H]; exact H.
Qed.

(** C1 fails as stated in a build without overflow checks: after opening
    positions of [2^64 - 1] and [1] lamports the vault's
    [total_value_locked] has wrapped to [0] while the active amounts sum to
    [2^64]. *)
Lemma vault_aggregates_wrap_counterexample :
  ~ (forall is, Forall aggregates_exact (trace Wrapping empty_state is)).
Proof.
  intros H. specialize (H (tx_tvl_overflow ++ [open_jito 1 102])).
  apply Forall_inv_tail, Forall_inv_tail, Forall_inv in H.
  edestruct (H agent1) as [Htvl _]; [reflexivity|].
  vm_compute in Htvl. discriminate.
Qed.


(** ** No instruction raises an error of the program's own *)

Lemma step_no_program_error m s i e : step m s i <> Throw (Molusco e).
Proof.
  destruct i; simpl;
    unfold initialize_vault, open_position, update_position, close_position,
      record_rebalance, bind, seeds_ok, constraint, exit_vault, exit_position,
      add_assign, sub_assign, arith;
    repeat case_match; congruence.
Qed.

(** ** C2: closing or updating a closed position *)

(** C2 (amended).  A successful [close_position] deletes the position
    account ([close = owner]); afterwards any [close_position] or
    [update_position] naming it fails with Anchor's [AccountNotInitialized]
    (so no state changes), and no instruction ever raises [PositionClosed]. *)
Theorem closed_position_rejected m s o va pa r :
  close_position m s o va pa = Ret r ->
  positions (post r) !! pa = None /\
  (forall o' va', close_position m (post r) o' va' pa = Throw (Anchor AccountNotInitialized)) /\
  (forall o' cv t, update_position m (post r) o' pa cv t = Throw (Anchor AccountNotInitialized)) /\
  (forall i, step m (post r) i <> Throw (Molusco PositionClosed)).
Proof.
  intros H. unfold close_position in H. cbv zeta in H.
  destruct (vaults s !! va) as [vault|] eqn:Hlv; [|discriminate].
  destruct (positions s !! pa) as [p|] eqn:Hlp; [|discriminate].
  do 5 inv_bind H. injection H as Hr. subst r.
  match goal with |- context [post ?rc] => set (r := rc) end.
  assert (Hgone : positions (post r) !! pa = None).
  { subst r. cbn [post positions]. apply lookup_delete_eq. }
  clearbody r.
  split; [exact Hgone|]. split; [|split].
  - intros o' va'. unfold close_position.
    destruct (vaults (post r) !! va'); [rewrite Hgone|]; reflexivity.
  - intros o' cv t. unfold update_position. rewrite Hgone. reflexivity.
  - intros i. apply step_no_program_error.
Qed.


Lemma closed_position_rejected_witness :
  exists r,
    close_position OverflowChecks (run OverflowChecks empty_state tx_scenario)
      1 agent1 (jito_slot 0) = Ret r /\
    update_position OverflowChecks (post r) 1 (jito_slot 0) 1050000000 103
      = Throw (Anchor AccountNotInitialized).
Proof.
  eexists. split; [reflexivity|].
  match goal with |- update_position _ (post ?rc) _ _ _ _ = _ =>
    apply (closed_position_rejected OverflowChecks
             (run OverflowChecks empty_state tx_scenario) 1 agent1 (jito_slot 0) rc);
    reflexivity
  end.
Defined.

(** C2 fails as stated: after the spec's scenario position is closed, a second
    close and an update of it fail with [AccountNotInitialized], not with
    [PositionClosed]. *)
Lemma close_twice_counterexample :
  exists r,
    close_position OverflowChecks (run OverflowChecks empty_state tx_scenario)
      1 agent1 (jito_slot 0) = Ret r /\
    close_position OverflowChecks (post r) 1 agent1 (jito_slot 0)
      = Throw (Anchor AccountNotInitialized) /\
    close_position OverflowChecks (post r) 1 agent1 (jito_slot 0)
      <> Throw (Molusco PositionClosed) /\
    update_position OverflowChecks (post r) 1 (jito_slot 0) 1050000000 103
      <> Throw (Molusco PositionClosed).
Proof.
  eexists. split; [reflexivity|]. vm_compute. split; [reflexivity|]. split; discriminate.
Qed.

(** ** C3: the effect of [update_position] *)

(** C3.  A successful [update_position] computes
    [yield_earned = max 0 (current_value - amount)] (the saturating
    subtraction), adds it to [accumulated_yield] (as a [u64]: exactly under
    overflow checks, modulo [2^64] otherwise), sets [last_update] to the
    clock's time and leaves every other field of the position, and every
    other account, unchanged. *)
Theorem update_position_accrues_yield m s o pa cv t r :
  update_position m s o pa cv t = Ret r ->
  exists p, positions s !! pa = Some p /\
    vaults (post r) = vaults s /\
    positions (post r) =
      <[pa := {| Position.owner := Position.owner p;
                 Position.vault := Position.vault p;
                 Position.protocol := Position.protocol p;
                 Position.strategy := Position.strategy p;
                 Position.asset := Position.asset p;
                 Position.amount := Position.amount p;
                 Position.target_apy := Position.target_apy p;
                 Position.opened_at := Position.opened_at p;
                 Position.last_update := t;
                 Position.is_active := Position.is_active p;
                 Position.accumulated_yield :=
                   reduce m 64 (Position.accumulated_yield p
                                + Z.max 0 (cv - Position.amount p)) |}]>
        (positions s) /\
    logs r = [LogPositionUpdated (Z.max 0 (cv - Position.amount p))].
Proof.
  intros H. unfold update_position in H. cbv zeta in H.
  destruct (positions s !! pa) as [p|] eqn:Hlk; [|discriminate].
  inv_bind H. inv_bind_as H acc Hacc. injection H as <-.
  apply add_assign_ret in Hacc; [|lia].
  exists p. rewrite <- saturating_sub_max, <- Hacc. repeat split; reflexivity.
Qed.

(** The spec's scenario: updating the 1 SOL position to 1.05 SOL earns
    [50_000_000] lamports of yield, and the accumulated yield becomes that. *)
Lemma update_position_accrues_yield_witness :
  exists r,
    update_position OverflowChecks (run OverflowChecks empty_state tx_scenario)
      1 (jito_slot 0) 1050000000 102 = Ret r /\
    logs r = [LogPositionUpdated 50000000] /\
    option_map Position.accumulated_yield (positions (post r) !! jito_slot 0)
      = Some 50000000.
Proof.
  eexists. split; [reflexivity|].
  match goal with |- logs ?rc = _ /\ _ =>
    destruct (update_position_accrues_yield OverflowChecks
                (run OverflowChecks empty_state tx_scenario) 1 (jito_slot 0)
                1050000000 102 rc eq_refl) as (p & Hp & _ & Hpos & Hlogs)
  end.
  vm_compute in Hp. injection Hp as <-.
  rewrite Hlogs, Hpos, lookup_insert_eq. split; reflexivity.
Defined.


(** ** C4: only the owner mutates *)

(** C4 (amended).  An instruction signed by someone other than the owner
    recorded on its vault or position fails and leaves every account as it
    was.  The error is Anchor's [ConstraintRaw] (the program has no
    [Unauthorized] error); [open_position] reports it once the new position's
    address is valid and free, and otherwise fails earlier while creating
    the position account. *)
Theorem non_owner_rejected m s c :
  (forall va v pr st a amt apy t,
     vaults s !! va = Some v -> Vault.owner v <> c ->
     apply_tx m s (OpenPosition c va pr st a amt apy t) = s /\
     (seeds_ok [pr; a] = Ret tt ->
      positions s !! position_address va pr a (next_slot v) = None ->
      open_position m s c va pr st a amt apy t = Throw (Anchor ConstraintRaw))) /\
  (forall pa p cv t,
     positions s !! pa = Some p -> Position.owner p <> c ->
     update_position m s c pa cv t = Throw (Anchor ConstraintRaw) /\
     apply_tx m s (UpdatePosition c pa cv t) = s) /\
  (forall va pa v p,
     vaults s !! va = Some v -> positions s !! pa = Some p ->
     Vault.owner v <> c \/ Position.owner p <> c ->
     close_position m s c va pa = Throw (Anchor ConstraintRaw) /\
     apply_tx m s (ClosePosition c va pa) = s) /\
  (forall va v t,
     vaults s !! va = Some v -> Vault.owner v <> c ->
     record_rebalance s c va t = Throw (Anchor ConstraintRaw) /\
     apply_tx m s (RecordRebalance c va t) = s).
Proof.
  split; [|split; [|split]].
  - intros va v pr st a amt apy t Hv Hne.
    assert (Hc : (Vault.owner v =? c) = false) by (apply Z.eqb_neq, Hne).
    unfold apply_tx, step, open_position. rewrite Hv. unfold bind. cbv zeta.
    split.
    + destruct (seeds_ok [pr; a]); cbv beta iota; [|reflexivity|reflexivity].
      destruct (positions s !! _); [reflexivity|].
      unfold constraint. rewrite Hc. reflexivity.
    + intros Hs Hp. rewrite Hs. cbv beta iota. rewrite Hp.
      unfold constraint. rewrite Hc. reflexivity.
  - intros pa p cv t Hp Hne.
    assert (Hc : (Position.owner p =? c) = false) by (apply Z.eqb_neq, Hne).
    assert (E : update_position m s c pa cv t = Throw (Anchor ConstraintRaw)).
    { unfold update_position. rewrite Hp. unfold bind, constraint. rewrite Hc. reflexivity. }
    split; [exact E|]. unfold apply_tx, step. rewrite E. reflexivity.
  - intros va pa v p Hv Hp Hne.
    assert (E : close_position m s c va pa = Throw (Anchor ConstraintRaw)).
    { unfold close_position. rewrite Hv, Hp. unfold bind, constraint.
      destruct Hne as [Hne|Hne].
      - rewrite (proj2 (Z.eqb_neq _ _) Hne). reflexivity.
      - destruct (Vault.owner v =? c); [|reflexivity].
        rewrite (proj2 (Z.eqb_neq _ _) Hne). reflexivity. }
    split; [exact E|]. unfold apply_tx, step. rewrite E. reflexivity.
  - intros va v t Hv Hne.
    assert (E : record_rebalance s c va t = Throw (Anchor ConstraintRaw)).
    { unfold record_rebalance. rewrite Hv. unfold bind, constraint.
      rewrite (proj2 (Z.eqb_neq _ _) Hne). reflexivity. }
    split; [exact E|]. unfold apply_tx, step. rewrite E. reflexivity.
Qed.

(** Signer [2] tries to update the position of owner [1]. *)
Lemma non_owner_rejected_witness :
  update_position OverflowChecks (run OverflowChecks empty_state tx_scenario)
    2 (jito_slot 0) 2000000000 103 = Throw (Anchor ConstraintRaw).
Proof.
  eapply (proj1 (proj1 (proj2 (non_owner_rejected OverflowChecks
            (run OverflowChecks empty_state tx_scenario) 2)) (jito_slot 0) _ 2000000000 103
            ltac:(reflexivity) ltac:(vm_compute; discriminate))).
Defined.

(** C4 fails as stated: the non-owner's update is rejected with Anchor's
    [ConstraintRaw], and no instruction reports an error of the program's
    own (where an [Unauthorized] would live). *)
Lemma non_owner_error_counterexample :
  update_position OverflowChecks (run OverflowChecks empty_state tx_scenario)
    2 (jito_slot 0) 2000000000 103 = Throw (Anchor ConstraintRaw) /\
  (forall e, step OverflowChecks (run OverflowChecks empty_state tx_scenario)
               (UpdatePosition 2 (jito_slot 0) 2000000000 103) <> Throw (Molusco e)).
Proof.
  split; [vm_compute; reflexivity|]. intros e. apply step_no_program_error.
Qed.


(** ** C5: the decrement of [close_position] *)

(** C5 (code bug).  [close_position] has no [InsufficientBalance] check.
    In a build without overflow checks, from the reachable ledger
    [tx_tvl_wrapped] (total value locked [0], a position of amount [1]) the
    close succeeds and wraps [total_value_locked] to [2^64 - 1]; with
    overflow checks the same accounts make it panic; no input makes it
    return [InsufficientBalance]. *)
Theorem close_underflow_not_rejected :
  (exists v p,
     vaults (run Wrapping empty_state tx_tvl_wrapped) !! agent1 = Some v /\
     positions (run Wrapping empty_state tx_tvl_wrapped) !! jito_slot 1 = Some p /\
     Vault.total_value_locked v = 0 /\ Position.amount p = 1) /\
  (exists r,
     close_position Wrapping (run Wrapping empty_state tx_tvl_wrapped) 1 agent1
       (jito_slot 1) = Ret r /\
     option_map Vault.total_value_locked (vaults (post r) !! agent1) = Some (2 ^ 64 - 1)) /\
  close_position OverflowChecks (run Wrapping empty_state tx_tvl_wrapped) 1 agent1
    (jito_slot 1) = Panic /\
  (forall m s o va pa, close_position m s o va pa <> Throw (Molusco InsufficientBalance)).
Proof.
  split; [|split; [|split]].
  - do 2 eexists. split; [reflexivity|]. split; [reflexivity|]. split; reflexivity.
  - eexists. split; [reflexivity|]. vm_compute. reflexivity.
  - vm_compute. reflexivity.
  - intros m s o va pa. apply (step_no_program_error m s (ClosePosition o va pa)).
Qed.

(** ** C6: monotonicity of [accumulated_yield] *)

(** C6 (amended).  A successful [update_position] never lowers
    [accumulated_yield] when the crate is built with overflow checks; without
    them it does not lower it unless [accumulated_yield + yield_earned]
    reaches [2^64], where the sum wraps around. *)
Theorem accumulated_yield_monotone m s o pa cv t r p :
  positions s !! pa = Some p ->
  update_position m s o pa cv t = Ret r ->
  m = OverflowChecks \/
    (0 <= Position.accumulated_yield p /\
     Position.accumulated_yield p + Z.max 0 (cv - Position.amount p) < 2 ^ 64) ->
  exists p', positions (post r) !! pa = Some p' /\
    Position.accumulated_yield p <= Position.accumulated_yield p'.
Proof.
  intros Hp H Hm. unfold update_position in H. rewrite Hp in H. cbv zeta in H.
  inv_bind H. inv_bind_as H acc Hacc. injection H as <-.
  apply add_assign_ret in Hacc; [|lia]. rewrite saturating_sub_max in Hacc.
  eexists. cbn [post positions]. rewrite lookup_insert_eq. split; [reflexivity|].
  cbn [Position.accumulated_yield]. subst acc.
  destruct Hm as [->|[H0 Hlt]]; [simpl; lia|].
  destruct m; simpl; [lia|]. rewrite Z.mod_small; lia.
Qed.

Lemma accumulated_yield_monotone_witness :
  exists r p,
    positions (run OverflowChecks empty_state tx_scenario) !! jito_slot 0 = Some p /\
    update_position OverflowChecks (run OverflowChecks empty_state tx_scenario)
      1 (jito_slot 0) 1050000000 102 = Ret r /\
    exists p', positions (post r) !! jito_slot 0 = Some p' /\
      Position.accumulated_yield p <= Position.accumulated_yield p'.
Proof.
  do 2 eexists. split; [reflexivity|]. split; [reflexivity|].
  match goal with |- context [post ?rc] =>
    apply (accumulated_yield_monotone OverflowChecks
             (run OverflowChecks empty_state tx_scenario) 1 (jito_slot 0)
             1050000000 102 rc); [reflexivity | reflexivity | left; reflexivity]
  end.
Defined.

(** C6 fails as stated without overflow checks: a second update at
    [u64::MAX] lowers the accumulated yield from [2^64 - 1] to [2^64 - 2]. *)
Lemma accumulated_yield_wrap_counterexample :
  option_map Position.accumulated_yield
    (positions (run Wrapping empty_state tx_yield_max) !! jito_slot 0) = Some (2 ^ 64 - 1) /\
  exists r,
    update_position Wrapping (run Wrapping empty_state tx_yield_max) 1 (jito_slot 0)
      (2 ^ 64 - 1) 103 = Ret r /\
    option_map Position.accumulated_yield (positions (post r) !! jito_slot 0)
      = Some (2 ^ 64 - 2).
Proof.
  split; [vm_compute; reflexivity|].
  eexists. split; [reflexivity|]. vm_compute. reflexivity.
Qed.

(** ** C7: [update_position] does not touch vaults *)

(** C7.  A successful [update_position] leaves every vault account, in
    particular [total_value_locked] and [position_count], unchanged. *)
Theorem update_position_keeps_vaults m s o pa cv t r :
  update_position m s o pa cv t = Ret r -> vaults (post r) = vaults s.
Proof.
  intros H. unfold update_position in H. cbv zeta in H.
  destruct (positions s !! pa); [|discriminate].
  inv_bind H. inv_bind H. injection H as <-. reflexivity.
Qed.

Lemma update_position_keeps_vaults_witness :
  exists r,
    update_position OverflowChecks (run OverflowChecks empty_state tx_scenario)
      1 (jito_slot 0) 1050000000 102 = Ret r /\
    option_map Vault.total_value_locked (vaults (post r) !! agent1) = Some 1000000000.
Proof.
  eexists. split; [reflexivity|].
  match goal with |- context [post ?rc] =>
    rewrite (update_position_keeps_vaults OverflowChecks
               (run OverflowChecks empty_state tx_scenario) 1 (jito_slot 0)
               1050000000 102 rc eq_refl)
  end.
  vm_compute. reflexivity.
Defined.


(** ** C8: the slot seed of new positions *)

Lemma next_slot_mod v : next_slot v = Vault.position_count v mod 256.
Proof.
  unfold next_slot, as_u8. change 255 with (Z.ones 8). rewrite Z.land_ones; [reflexivity | lia].
Qed.

(** C8 (amended).  The slot seed of a new position is the vault's
    [position_count] at that moment truncated to 8 bits; each successful
    open increments [position_count] and each successful close decrements it
    (as a [u16]), so the slot of a closed position is used again by a later
    open, and slots also repeat every 256 opens. *)
Theorem slot_follows_position_count m s :
  (forall o va pr st a amt apy t r,
     open_position m s o va pr st a amt apy t = Ret r ->
     exists v v', vaults s !! va = Some v /\ vaults (post r) !! va = Some v' /\
       next_slot v = Vault.position_count v mod 256 /\
       positions (post r) !! position_address va pr a (next_slot v) <> None /\
       Vault.position_count v' = reduce m 16 (Vault.position_count v + 1)) /\
  (forall o va pa r,
     close_position m s o va pa = Ret r ->
     exists v v', vaults s !! va = Some v /\ vaults (post r) !! va = Some v' /\
       Vault.position_count v' = reduce m 16 (Vault.position_count v - 1)).
Proof.
  split.
  - intros o va pr st a amt apy t r H. unfold open_position in H. cbv zeta in H.
    destruct (vaults s !! va) as [v|] eqn:Hv; [|discriminate].
    inv_bind H. case_lookup H; [discriminate|].
    inv_bind H. inv_bind_as H cnt Hcnt. inv_bind H. inv_bind H. injection H as <-.
    eexists v, _. cbn [post vaults positions].
    split; [reflexivity|]. split; [apply lookup_insert_eq|].
    split; [apply next_slot_mod|]. split; [rewrite lookup_insert_eq; discriminate|].
    cbn. apply add_assign_ret in Hcnt; [exact Hcnt | lia].
  - intros o va pa r H. unfold close_position in H. cbv zeta in H.
    destruct (vaults s !! va) as [v|] eqn:Hv; [|discriminate].
    destruct (positions s !! pa); [|discriminate].
    do 3 inv_bind H. inv_bind_as H cnt Hcnt. inv_bind H. injection H as <-.
    eexists v, _. cbn [post vaults]. split; [reflexivity|]. split; [apply lookup_insert_eq|].
    cbn. unfold sub_assign in Hcnt. apply (arith_reduce m 16 _ _ _ ltac:(lia) Hcnt); reflexivity.
Qed.

(** The first open of the spec's scenario uses slot [0] and sets the count to [1]. *)
Lemma slot_follows_position_count_witness :
  exists r v v',
    open_position OverflowChecks (run OverflowChecks empty_state [InitializeVault 1 "agent1" 100])
      1 agent1 "JitoSOL" "Liquid Staking" "SOL" 1000000000 800 101 = Ret r /\
    vaults (run OverflowChecks empty_state [InitializeVault 1 "agent1" 100]) !! agent1 = Some v /\
    vaults (post r) !! agent1 = Some v' /\
    next_slot v = 0 /\ Vault.position_count v' = 1.
Proof.
  eexists.
  match goal with |- exists _ _, ?E = Ret ?rc /\ _ =>
    destruct (proj1 (slot_follows_position_count OverflowChecks
                       (run OverflowChecks empty_state [InitializeVault 1 "agent1" 100]))
                1 agent1 "JitoSOL" "Liquid Staking" "SOL" 1000000000 800 101 rc)
      as (v & v' & Hv & Hv' & Hslot & _ & Hcnt); [reflexivity|]
  end.
  exists v, v'. split; [reflexivity|]. split; [exact Hv|]. split; [exact Hv'|].
  rewrite Hslot, Hcnt. vm_compute in Hv. injection Hv as <-. split; reflexivity.
Defined.

(** C8 fails as stated: open, close, open gives slot [0] twice. *)
Lemma slot_reuse_counterexample :
  opened_slots OverflowChecks empty_state tx_reopen = [0; 0] /\
  ~ (forall is, NoDup (opened_slots OverflowChecks empty_state is)).
Proof.
  assert (E : opened_slots OverflowChecks empty_state tx_reopen = [0; 0])
    by (vm_compute; reflexivity).
  split; [exact E|]. intros H. specialize (H tx_reopen). rewrite E in H.
  inversion H as [|x l Hx _]. apply Hx. left.
Qed.


(** ** C9: what [close_position] hands back *)

(** C9 (amended).  A successful [close_position] deletes the position account
    (the [is_active = false] the handler writes goes with it), hands back no
    return value ([Result<()>]), and reports the final [accumulated_yield]
    only in its log message. *)
Theorem close_position_outcome m s o va pa r :
  close_position m s o va pa = Ret r ->
  exists p, positions s !! pa = Some p /\
    return_data r = None /\
    logs r = [LogPositionClosed (Position.accumulated_yield p)] /\
    positions (post r) !! pa = None.
Proof.
  intros H. unfold close_position in H. cbv zeta in H.
  destruct (vaults s !! va); [|discriminate].
  destruct (positions s !! pa) as [p|] eqn:Hp; [|discriminate].
  do 5 inv_bind H. injection H as <-.
  exists p. split; [reflexivity|]. split; [reflexivity|]. split; [reflexivity|].
  cbn [post positions]. apply lookup_delete_eq.
Qed.

(** Closing the scenario's position after the update: the log reports the
    [50_000_000] lamports of yield. *)
Lemma close_position_outcome_witness :
  exists r,
    close_position OverflowChecks (run OverflowChecks empty_state tx_scenario_updated)
      1 agent1 (jito_slot 0) = Ret r /\
    return_data r = None /\ logs r = [LogPositionClosed 50000000].
Proof.
  eexists. split; [reflexivity|].
  match goal with |- return_data ?rc = _ /\ _ =>
    destruct (close_position_outcome OverflowChecks
                (run OverflowChecks empty_state tx_scenario_updated) 1 agent1
                (jito_slot 0) rc eq_refl) as (p & Hp & Hret & Hlogs & _)
  end.
  vm_compute in Hp. injection Hp as <-. split; [exact Hret | exact Hlogs].
Defined.

(** C9 fails as stated: the position holds [50_000_000] of accumulated yield,
    yet its close returns no value. *)
Lemma close_returns_nothing_counterexample :
  option_map Position.accumulated_yield
    (positions (run OverflowChecks empty_state tx_scenario_updated) !! jito_slot 0)
    = Some 50000000 /\
  exists r,
    close_position OverflowChecks (run OverflowChecks empty_state tx_scenario_updated)
      1 agent1 (jito_slot 0) = Ret r /\
    return_data r <> Some 50000000.
Proof.
  split; [vm_compute; reflexivity|].
  eexists. split; [reflexivity|]. vm_compute. discriminate.
Qed.

(** ** C10: unchecked aggregate arithmetic *)
















(** * Further properties of the program *)

(** ** [initialize_vault] *)

(** [initialize_vault] succeeds exactly when the agent name fits a PDA seed
    (at most 32 bytes) and no vault exists yet for [(owner, agent_name)];
    a second vault for the same pair fails with [AccountAlreadyInUse], an
    over-long name panics in [find_program_address]. *)
Theorem initialize_vault_succeeds_iff s o n t :
  ((exists r, initialize_vault s o n t = Ret r) <->
     (String.length n <= 32)%nat /\ vaults s !! (o, n) = None) /\
  ((String.length n <= 32)%nat -> vaults s !! (o, n) <> None ->
     initialize_vault s o n t = Throw (System AccountAlreadyInUse)) /\
  ((32 < String.length n)%nat -> initialize_vault s o n t = Panic).
Proof.
  unfold initialize_vault, seeds_ok. simpl forallb. rewrite andb_true_r.
  destruct (Nat.leb_spec (String.length n) 32) as [Hn|Hn]; cbn [bind]; cbv zeta.
  - destruct (vaults s !! (o, n)) eqn:E.
    + split; [split; [intros [r Hr]; discriminate | intros [_ Hc]; discriminate]|].
      split; [intros _ _; reflexivity | intros; lia].
    + unfold exit_vault, Vault.serialized_len, Vault.SIZE. cbn [Vault.agent_name].
      rewrite (proj2 (Z.leb_le _ _)) by lia. cbn [bind].
      split; [split; [intros _; split; [lia|reflexivity] | intros _; eexists; reflexivity]|].
      split; [intros _ Hc; exfalso; exact (Hc eq_refl) | intros; lia].
  - split; [split; [intros [r Hr]; discriminate | intros [Hc _]; lia]|].
    split; [intros; lia | intros; reflexivity].
Qed.

Lemma initialize_vault_succeeds_iff_witness :
  initialize_vault (run OverflowChecks empty_state tx_scenario) 1 "agent1" 200
    = Throw (System AccountAlreadyInUse).
Proof.
  apply (proj1 (proj2 (initialize_vault_succeeds_iff
                         (run OverflowChecks empty_state tx_scenario) 1 "agent1" 200)));
    [vm_compute; lia | vm_compute; discriminate].
Defined.

(** ** [record_rebalance] *)

(** [record_rebalance] succeeds exactly when the vault exists and the signer
    is its owner; it then sets [last_rebalance] to the clock's time and
    changes nothing else. *)
Theorem record_rebalance_effect s o va t :
  ((exists r, record_rebalance s o va t = Ret r) <->
     (exists v, vaults s !! va = Some v /\ Vault.owner v = o)) /\
  forall r v, record_rebalance s o va t = Ret r -> vaults s !! va = Some v ->
    post r = mkState
      (<[va := {| Vault.owner := Vault.owner v;
                  Vault.agent_name := Vault.agent_name v;
                  Vault.total_value_locked := Vault.total_value_locked v;
                  Vault.position_count := Vault.position_count v;
                  Vault.created_at := Vault.created_at v;
                  Vault.last_rebalance := t |}]> (vaults s))
      (positions s).
Proof.
  split.
  - unfold record_rebalance. destruct (vaults s !! va) as [v|].
    + unfold bind, constraint. split.
      * intros [r Hr]. exists v. split; [reflexivity|].
        destruct (Z.eqb_spec (Vault.owner v) o); [assumption|discriminate].
      * intros [v' [Hv' Ho]]. injection Hv' as <-. rewrite (proj2 (Z.eqb_eq _ _) Ho).
        eexists. reflexivity.
    + split; [intros [r Hr]; discriminate | intros [v [Hv _]]; discriminate].
  - intros r v H Hv. unfold record_rebalance in H. rewrite Hv in H. cbv zeta in H.
    inv_bind H. injection H as <-. reflexivity.
Qed.

Lemma record_rebalance_effect_witness :
  exists r,
    record_rebalance (run OverflowChecks empty_state tx_scenario) 1 agent1 500 = Ret r /\
    option_map Vault.last_rebalance (vaults (post r) !! agent1) = Some 500.
Proof.
  eexists. split; [reflexivity|].
  match goal with |- context [post ?rc] =>
    rewrite (proj2 (record_rebalance_effect (run OverflowChecks empty_state tx_scenario)
                      1 agent1 500) rc _ eq_refl eq_refl)
  end.
  cbn [vaults]. rewrite lookup_insert_eq. reflexivity.
Defined.


(** ** [open_position] *)

(** A successful [open_position] was signed by the vault's owner and
    stores, at the previously free address derived from the vault's current
    slot, a new active position with zero yield whose fields are the
    instruction's arguments and the clock's time; the other positions are
    untouched. *)
Theorem open_position_effect m s o va pr st a amt apy t r :
  open_position m s o va pr st a amt apy t = Ret r ->
  exists v, vaults s !! va = Some v /\ Vault.owner v = o /\
    positions s !! position_address va pr a (next_slot v) = None /\
    positions (post r) =
      <[position_address va pr a (next_slot v) :=
          {| Position.owner := o; Position.vault := va;
             Position.protocol := pr; Position.strategy := st; Position.asset := a;
             Position.amount := amt; Position.target_apy := apy;
             Position.opened_at := t; Position.last_update := t;
             Position.is_active := true; Position.accumulated_yield := 0 |}]>
        (positions s).
Proof.
  intros H. unfold open_position in H. cbv zeta in H.
  destruct (vaults s !! va) as [v|] eqn:Hv; [|discriminate].
  inv_bind H. case_lookup H; [discriminate|].
  inv_bind_as H u Hown. apply constraint_ret, Z.eqb_eq in Hown.
  do 3 inv_bind H. injection H as <-.
  exists v. split; [reflexivity|]. split; [exact Hown|]. split; [exact Hlk|]. reflexivity.
Qed.

Lemma open_position_effect_witness :
  exists r,
    open_position OverflowChecks (run OverflowChecks empty_state [InitializeVault 1 "agent1" 100])
      1 agent1 "JitoSOL" "Liquid Staking" "SOL" 1000000000 800 101 = Ret r /\
    option_map Position.is_active (positions (post r) !! jito_slot 0) = Some true.
Proof.
  eexists. split; [reflexivity|].
  match goal with |- context [post ?rc] =>
    destruct (open_position_effect OverflowChecks
                (run OverflowChecks empty_state [InitializeVault 1 "agent1" 100])
                1 agent1 "JitoSOL" "Liquid Staking" "SOL" 1000000000 800 101 rc eq_refl)
      as (v & Hv & _ & _ & Hpos)
  end.
  vm_compute in Hv. injection Hv as <-. rewrite Hpos, lookup_insert_eq. reflexivity.
Defined.

(** [open_position] fails with [AccountAlreadyInUse] when the address derived
    from the vault's current [position_count] is still held by a position,
    e.g. when a close has brought the count back to the slot of a position
    that is still open. *)
Theorem open_position_slot_taken m s o va pr st a amt apy t v :
  vaults s !! va = Some v ->
  (String.length pr <= 32)%nat -> (String.length a <= 32)%nat ->
  positions s !! position_address va pr a (next_slot v) <> None ->
  open_position m s o va pr st a amt apy t = Throw (System AccountAlreadyInUse).
Proof.
  intros Hv Hp Ha Htaken. unfold open_position. rewrite Hv. cbv zeta.
  unfold seeds_ok. simpl forallb.
  rewrite (proj2 (Nat.leb_le _ _) Hp), (proj2 (Nat.leb_le _ _) Ha). cbn [andb bind].
  destruct (positions s !! position_address va pr a (next_slot v)); [reflexivity|].
  exfalso. exact (Htaken eq_refl).
Qed.

(** Slots [0] and [1] opened, slot [0] closed: the next open derives slot [1]
    again and collides with the open second position. *)
Lemma open_position_slot_taken_witness :
  open_position OverflowChecks (run OverflowChecks empty_state tx_slot_collision)
    1 agent1 "JitoSOL" "Liquid Staking" "SOL" 3000000000 800 104
    = Throw (System AccountAlreadyInUse).
Proof.
  eapply open_position_slot_taken;
    [reflexivity | vm_compute; lia | vm_compute; lia | vm_compute; discriminate].
Defined.

(** The account space reserved by [Position::SIZE] bounds the strings of a
    successful [open_position] only in total: protocol, strategy and asset
    together take at most 46 bytes, and protocol and asset, being PDA seeds,
    at most 32 bytes each (not 16, 20 and 10 bytes each). *)
Theorem open_position_string_budget m s o va pr st a amt apy t r :
  open_position m s o va pr st a amt apy t = Ret r ->
  (String.length pr <= 32)%nat /\ (String.length a <= 32)%nat /\
  (String.length pr + String.length st + String.length a <= 46)%nat.
Proof.
  intros H. unfold open_position in H. cbv zeta in H.
  destruct (vaults s !! va); [|discriminate].
  inv_bind_as H u Hseeds. unfold seeds_ok in Hseeds. simpl forallb in Hseeds.
  destruct (Nat.leb_spec (String.length pr) 32); [|discriminate].
  destruct (Nat.leb_spec (String.length a) 32); [|discriminate].
  case_lookup H; [discriminate|].
  do 3 inv_bind H. inv_bind_as H u' Hexit. unfold exit_position in Hexit.
  unfold Position.serialized_len, Position.SIZE in Hexit. cbn [Position.protocol
    Position.strategy Position.asset] in Hexit.
  destruct (Z.leb_spec (32 + 32 + (4 + Z.of_nat (String.length pr))
      + (4 + Z.of_nat (String.length st)) + (4 + Z.of_nat (String.length a))
      + 8 + 2 + 8 + 8 + 1 + 8 + 1)
      (32 + 32 + (4 + 16) + (4 + 20) + (4 + 10) + 8 + 2 + 8 + 8 + 1 + 8 + 1));
    [|discriminate].
  lia.
Qed.

(** A 30-byte protocol name is accepted. *)
Lemma open_position_string_budget_witness :
  exists r,
    open_position OverflowChecks (run OverflowChecks empty_state [InitializeVault 1 "agent1" 100])
      1 agent1 long_protocol "LS" "SOL" 1000000000 800 101 = Ret r /\
    (String.length long_protocol = 30)%nat /\
    (String.length long_protocol + String.length "LS" + String.length "SOL" <= 46)%nat.
Proof.
  eexists. split; [reflexivity|]. split; [reflexivity|].
  exact (proj2 (proj2 (open_position_string_budget OverflowChecks
            (run OverflowChecks empty_state [InitializeVault 1 "agent1" 100])
            1 agent1 long_protocol "LS" "SOL" 1000000000 800 101 _ eq_refl))).
Defined.

(** ** [close_position] *)

(** [close_position] fails with [ConstraintRaw] when the position belongs to
    another vault than the one named, even when the signer owns both. *)
Theorem close_position_wrong_vault m s o va pa v p :
  vaults s !! va = Some v -> positions s !! pa = Some p ->
  Vault.owner v = o -> Position.owner p = o -> Position.vault p <> va ->
  close_position m s o va pa = Throw (Anchor ConstraintRaw).
Proof.
  intros Hv Hp Hvo Hpo Hne. unfold close_position. rewrite Hv, Hp.
  unfold bind, constraint. rewrite Hvo, Hpo, Z.eqb_refl.
  rewrite bool_decide_eq_false_2 by exact Hne. reflexivity.
Qed.

Lemma close_position_wrong_vault_witness :
  close_position OverflowChecks (run OverflowChecks empty_state tx_two_vaults)
    1 agent2 (jito_slot 0) = Throw (Anchor ConstraintRaw).
Proof.
  eapply close_position_wrong_vault;
    [reflexivity | reflexivity | reflexivity | reflexivity | vm_compute; discriminate].
Defined.


(** ** Frame properties of the instructions *)

Ltac invert_ok H :=
  repeat match type of H with
  | bind _ _ = Ret _ =>
      let a := fresh "a" in let Hc := fresh "Hc" in
      apply bind_ret in H; destruct H as (a & Hc & H)
  | (match ?x with _ => _ end) = Ret _ =>
      let E := fresh "E" in destruct x eqn:E; try discriminate
  | Ret _ = Ret _ => injection H as <-
  end.

Ltac invert_step H :=
  unfold step, initialize_vault, open_position, update_position, close_position,
    record_rebalance in H;
  cbv zeta in H; invert_ok H.

Ltac unify_lookups :=
  repeat match goal with
  | H1 : ?m !! ?k = Some ?x, H2 : ?m !! ?k = Some ?y |- _ =>
      tryif constr_eq x y then fail
      else (rewrite H1 in H2; injection H2 as H2; subst)
  end.

Ltac split_insert :=
  repeat match goal with
  | |- context [<[?k := _]> _ !! ?j] =>
      destruct (decide (k = j)) as [<-|?];
      [rewrite lookup_insert_eq | rewrite lookup_insert_ne by done]
  | |- context [delete ?k _ !! ?j] =>
      destruct (decide (k = j)) as [<-|?];
      [rewrite lookup_delete_eq | rewrite lookup_delete_ne by done]
  end.

Ltac norm_constraints :=
  repeat match goal with
  | H : constraint _ = Ret _ |- _ => apply constraint_ret in H
  | H : (_ =? _) = true |- _ => apply Z.eqb_eq in H
  | H : bool_decide _ = true |- _ => apply bool_decide_eq_true in H
  end.

Lemma step_vault_kept m s i r va v :
  step m s i = Ret r -> vaults s !! va = Some v ->
  exists v', vaults (post r) !! va = Some v' /\
    Vault.owner v' = Vault.owner v /\ Vault.agent_name v' = Vault.agent_name v /\
    Vault.created_at v' = Vault.created_at v.
Proof.
  intros H Hv. destruct i; invert_step H; cbn [post vaults];
    split_insert; unify_lookups; try congruence;
    first [ eexists; split; [reflexivity|]; cbn; repeat split
          | exists v; split; [exact Hv|]; repeat split ].
Qed.


Lemma step_position_kept m s i r pa p :
  step m s i = Ret r -> positions s !! pa = Some p ->
  forall p', positions (post r) !! pa = Some p' ->
    Position.owner p' = Position.owner p /\ Position.vault p' = Position.vault p /\
    Position.protocol p' = Position.protocol p /\
    Position.strategy p' = Position.strategy p /\
    Position.asset p' = Position.asset p /\ Position.amount p' = Position.amount p /\
    Position.target_apy p' = Position.target_apy p /\
    Position.opened_at p' = Position.opened_at p.
Proof.
  intros H Hp. destruct i; invert_step H; cbn [post positions];
    split_insert; intros p' Hp'; unify_lookups; try congruence;
    try (injection Hp' as <-); cbn; repeat split.
Qed.

Lemma step_ownership_inv m s i r :
  ownership_inv s -> step m s i = Ret r -> ownership_inv (post r).
Proof.
  intros [I1 I2] H. split.
  - intros va v. pose proof H as H'.
    destruct i; invert_step H'; cbn [post vaults];
      split_insert; intros Hl; try (injection Hl as <-); cbn; eauto.
  - intros pa p Hl. destruct (positions s !! pa) as [p0|] eqn:Hp0.
    + destruct (step_position_kept m s i r pa p0 H Hp0 p Hl) as (Ho & Hva & _).
      destruct (I2 pa p0 Hp0) as (Hk & v & Hv & Hvo).
      destruct (step_vault_kept m s i r _ v H Hv) as (v' & Hv' & Hv'o & _).
      rewrite Ho, Hva. split; [exact Hk|]. exists v'. split; [exact Hv'|congruence].
    + revert Hl. destruct i; invert_step H; norm_constraints; cbn [post vaults positions];
        split_insert; intros Hl; try congruence;
        injection Hl as <-; cbn in *;
        first [ congruence
              | split; [reflexivity|]; eexists; split; [reflexivity|]; cbn; congruence ].
Qed.


Lemma apply_tx_ownership_inv m s i :
  ownership_inv s -> ownership_inv (apply_tx m s i).
Proof.
  intros I. unfold apply_tx. destruct (step m s i) eqn:H; try exact I.
  exact (step_ownership_inv m s i _ I H).
Qed.

Lemma trace_ownership_inv m s is :
  ownership_inv s -> Forall ownership_inv (trace m s is).
Proof.
  revert s. induction is as [|i is IH]; intros s I; constructor.
  - exact (apply_tx_ownership_inv m s i I).
  - apply IH. exact (apply_tx_ownership_inv m s i I).
Qed.

Lemma empty_state_ownership_inv : ownership_inv empty_state.
Proof. split; intros ? ? H; discriminate H. Qed.

Lemma run_vault_kept m s is va v :
  vaults s !! va = Some v ->
  exists v', vaults (run m s is) !! va = Some v' /\
    Vault.owner v' = Vault.owner v /\ Vault.agent_name v' = Vault.agent_name v /\
    Vault.created_at v' = Vault.created_at v.
Proof.
  unfold run. revert s v. induction is as [|i is IH]; intros s v Hv; cbn [fold_left].
  - exists v. auto.
  - assert (exists v1, vaults (apply_tx m s i) !! va = Some v1 /\
              Vault.owner v1 = Vault.owner v /\ Vault.agent_name v1 = Vault.agent_name v /\
              Vault.created_at v1 = Vault.created_at v) as (v1 & Hv1 & E1 & E2 & E3).
    { unfold apply_tx. destruct (step m s i) eqn:H; [|exists v; auto..].
      exact (step_vault_kept m s i _ va v H Hv). }
    destruct (IH _ _ Hv1) as (v2 & Hv2 & F1 & F2 & F3).
    exists v2. repeat split; congruence.
Qed.

(** ** Isolation and persistence *)

(** A transaction, committed or not, leaves every vault it does not name
    unchanged; [update_position] names none. *)
Theorem tx_other_vaults_untouched m s i va :
  instr_vault i <> Some va -> vaults (apply_tx m s i) !! va = vaults s !! va.
Proof.
  intros Hi. unfold apply_tx. destruct (step m s i) as [r| |] eqn:H; try reflexivity.
  destruct i; invert_step H; cbn [post vaults instr_vault] in *; try reflexivity;
    rewrite lookup_insert_ne; congruence.
Qed.

Lemma tx_other_vaults_untouched_witness :
  instr_vault (open_jito 2000000000 102) <> Some agent2 /\
  vaults (apply_tx OverflowChecks (run OverflowChecks empty_state tx_two_vaults)
            (open_jito 2000000000 102)) !! agent2
  = vaults (run OverflowChecks empty_state tx_two_vaults) !! agent2.
Proof.
  assert (Hi : instr_vault (open_jito 2000000000 102) <> Some agent2) by (intros Heq; inversion Heq).
  split; [exact Hi|]. exact (tx_other_vaults_untouched _ _ _ _ Hi).
Defined.

(** Along any sequence of transactions from the empty state, every vault is
    stored at the address of its seeds [(owner, agent_name)], and every
    position is stored under the vault it records, which exists and belongs
    to the position's owner. *)
Theorem ownership_along_trace m is :
  Forall ownership_inv (trace m empty_state is).
Proof. exact (trace_ownership_inv m empty_state is empty_state_ownership_inv). Qed.

(** Vaults are never deleted: once a vault exists, it exists after any
    sequence of transactions, with the same owner, agent name and creation
    time. *)
Theorem vault_identity_persists m s is va v :
  vaults s !! va = Some v ->
  exists v', vaults (run m s is) !! va = Some v' /\
    Vault.owner v' = Vault.owner v /\ Vault.agent_name v' = Vault.agent_name v /\
    Vault.created_at v' = Vault.created_at v.
Proof. exact (run_vault_kept m s is va v). Qed.


Lemma vault_identity_persists_witness :
  exists v,
    vaults (run OverflowChecks empty_state [InitializeVault 1 "agent1" 100]) !! agent1 = Some v /\
    exists v', vaults (run OverflowChecks
                         (run OverflowChecks empty_state [InitializeVault 1 "agent1" 100])
                         (skipn 1 tx_slot_collision ++ [RecordRebalance 1 agent1 104]))
                 !! agent1 = Some v' /\
      Vault.owner v' = Vault.owner v /\ Vault.agent_name v' = Vault.agent_name v /\
      Vault.created_at v' = Vault.created_at v.
Proof.
  eexists. split; [vm_compute; reflexivity|].
  apply vault_identity_persists. vm_compute. reflexivity.
Defined.

(** Once stored, a position's owner, vault, protocol, strategy, asset,
    amount, target APY and opening time never change: a transaction,
    committed or not, after which the position is still stored leaves them
    as they were. *)
Theorem tx_position_fields_fixed m s i pa p p' :
  positions s !! pa = Some p -> positions (apply_tx m s i) !! pa = Some p' ->
  Position.owner p' = Position.owner p /\ Position.vault p' = Position.vault p /\
  Position.protocol p' = Position.protocol p /\
  Position.strategy p' = Position.strategy p /\
  Position.asset p' = Position.asset p /\ Position.amount p' = Position.amount p /\
  Position.target_apy p' = Position.target_apy p /\
  Position.opened_at p' = Position.opened_at p.
Proof.
  intros Hp. unfold apply_tx. destruct (step m s i) as [r| |] eqn:H.
  - exact (step_position_kept m s i r pa p H Hp p').
  - rewrite Hp. intros Hp'. injection Hp' as <-. repeat split.
  - rewrite Hp. intros Hp'. injection Hp' as <-. repeat split.
Qed.

Lemma tx_position_fields_fixed_witness :
  exists p p',
    positions (run OverflowChecks empty_state tx_scenario) !! jito_slot 0 = Some p /\
    positions (apply_tx OverflowChecks (run OverflowChecks empty_state tx_scenario)
                 (UpdatePosition 1 (jito_slot 0) 1050000000 102)) !! jito_slot 0 = Some p' /\
    Position.amount p' = Position.amount p /\ Position.opened_at p' = Position.opened_at p.
Proof.
  do 2 eexists. split; [vm_compute; reflexivity|]. split; [vm_compute; reflexivity|].
  refine (match tx_position_fields_fixed OverflowChecks
                  (run OverflowChecks empty_state tx_scenario)
                  (UpdatePosition 1 (jito_slot 0) 1050000000 102) (jito_slot 0) _ _
                  eq_refl eq_refl with
          | conj _ (conj _ (conj _ (conj _ (conj _ (conj Ha (conj _ Ho)))))) => conj Ha Ho
          end).
Defined.


(** ** Composition *)

Lemma arith_checked_ret w r x : arith OverflowChecks w r = Ret x -> x = r.
Proof. unfold arith. destruct (fits_width w r); congruence. Qed.

(** With overflow checks on, opening a position and then closing it with the
    same signer restores the state exactly: the vault's counters and value
    come back and the position account is gone. *)
Theorem open_then_close_restores s o va pr st a amt apy t v r1 r2 :
  vaults s !! va = Some v ->
  step OverflowChecks s (OpenPosition o va pr st a amt apy t) = Ret r1 ->
  step OverflowChecks (post r1)
    (ClosePosition o va (position_address va pr a (next_slot v))) = Ret r2 ->
  post r2 = s.
Proof.
  intros Hv H1 H2. cbn [step] in H1, H2.
  unfold open_position in H1. rewrite Hv in H1. cbv zeta in H1. invert_ok H1.
  unfold close_position in H2. cbn [post vaults positions] in H2.
  rewrite !lookup_insert_eq in H2. cbv zeta in H2. invert_ok H2.
  repeat match goal with
  | H : add_assign OverflowChecks _ _ _ = Ret _ |- _ => apply arith_checked_ret in H
  | H : sub_assign OverflowChecks _ _ _ = Ret _ |- _ => apply arith_checked_ret in H
  end.
  subst. cbn [post]. rewrite insert_insert_eq, delete_insert_eq, delete_insert_id by assumption.
  match goal with |- context [<[va := ?w]> (vaults s)] => replace w with v end.
  - rewrite insert_id by exact Hv. destruct s. reflexivity.
  - destruct v. cbn. f_equal; lia.
Qed.


Lemma open_then_close_restores_witness :
  let s0 := run OverflowChecks empty_state tx_scenario in
  let v := default (Vault.mk 0 EmptyString 0 0 0 0) (vaults s0 !! agent1) in
  let r1 := ret_or (mkReceipt s0 [] None)
              (step OverflowChecks s0
                 (OpenPosition 1 agent1 "Marinade" "Liquid Staking" "mSOL" 500 700 102)) in
  let r2 := ret_or (mkReceipt s0 [] None)
              (step OverflowChecks (post r1)
                 (ClosePosition 1 agent1
                    (position_address agent1 "Marinade" "mSOL" (next_slot v)))) in
  vaults s0 !! agent1 = Some v /\
  step OverflowChecks s0
    (OpenPosition 1 agent1 "Marinade" "Liquid Staking" "mSOL" 500 700 102) = Ret r1 /\
  step OverflowChecks (post r1)
    (ClosePosition 1 agent1 (position_address agent1 "Marinade" "mSOL" (next_slot v)))
    = Ret r2 /\
  post r2 = s0.
Proof.
  intros s0 v r1 r2.
  assert (H1 : vaults s0 !! agent1 = Some v) by (vm_compute; reflexivity).
  assert (H2 : step OverflowChecks s0
    (OpenPosition 1 agent1 "Marinade" "Liquid Staking" "mSOL" 500 700 102) = Ret r1)
    by (vm_compute; reflexivity).
  assert (H3 : step OverflowChecks (post r1)
    (ClosePosition 1 agent1 (position_address agent1 "Marinade" "mSOL" (next_slot v)))
    = Ret r2) by (vm_compute; reflexivity).
  exact (conj H1 (conj H2 (conj H3
    (open_then_close_restores _ _ _ _ _ _ _ _ _ _ _ _ H1 H2 H3)))).
Defined.


(** ** Position addresses *)

Lemma step_address_inv m s i r :
  address_inv s -> step m s i = Ret r -> address_inv (post r).
Proof.
  intros I H pa p Hl. destruct (positions s !! pa) as [p0|] eqn:Hp0.
  - destruct (step_position_kept m s i r pa p0 H Hp0 p Hl) as (_ & Hva & Hpr & _ & Ha & _).
    rewrite Hva, Hpr, Ha. exact (I pa p0 Hp0).
  - revert Hl. destruct i; invert_step H; cbn [post positions];
      split_insert; intros Hl; try congruence.
    injection Hl as <-. cbn [Position.vault Position.protocol Position.asset]. exists (next_slot t). split; [|reflexivity].
    rewrite next_slot_mod. apply Z.mod_pos_bound. lia.
Qed.

Lemma trace_address_inv m s is :
  address_inv s -> Forall address_inv (trace m s is).
Proof.
  assert (Htx : forall s i, address_inv s -> address_inv (apply_tx m s i)).
  { intros s0 i I. unfold apply_tx. destruct (step m s0 i) eqn:H; try exact I.
    exact (step_address_inv m s0 i _ I H). }
  revert s. induction is as [|i is IH]; intros s I; constructor; auto.
Qed.

(** Along any sequence of transactions from the empty state, every stored
    position is at the address [(vault, protocol ++ asset, slot)] of its own
    fields, with [0 <= slot < 256]. *)
Theorem positions_at_own_address m is :
  Forall address_inv (trace m empty_state is).
Proof.
  apply trace_address_inv. intros pa p H. discriminate H.
Qed.


(** The yield of an update is measured against the position's opening
    [amount], not against the value of the previous update: with overflow
    checks on, two updates reporting the same [current_value] accrue the
    same yield twice. *)
Theorem update_twice_accrues_twice s o pa cv t1 t2 p r1 r2 :
  positions s !! pa = Some p ->
  step OverflowChecks s (UpdatePosition o pa cv t1) = Ret r1 ->
  step OverflowChecks (post r1) (UpdatePosition o pa cv t2) = Ret r2 ->
  exists p2, positions (post r2) !! pa = Some p2 /\
    Position.accumulated_yield p2 =
      Position.accumulated_yield p + 2 * Z.max 0 (cv - Position.amount p).
Proof.
  intros Hp H1 H2. cbn [step] in H1, H2.
  unfold update_position in H1. rewrite Hp in H1. cbv zeta in H1. invert_ok H1.
  unfold update_position in H2. cbn [post positions] in H2.
  rewrite lookup_insert_eq in H2. cbv zeta in H2. invert_ok H2.
  repeat match goal with
  | H : add_assign OverflowChecks _ _ _ = Ret _ |- _ => apply arith_checked_ret in H
  end.
  subst. eexists. cbn [post positions]. rewrite lookup_insert_eq. split; [reflexivity|].
  cbn. rewrite !saturating_sub_max. lia.
Qed.

Lemma update_twice_accrues_twice_witness :
  let s0 := run OverflowChecks empty_state tx_scenario in
  let p := default (position_of_default) (positions s0 !! jito_slot 0) in
  let r1 := ret_or (mkReceipt s0 [] None)
              (step OverflowChecks s0 (UpdatePosition 1 (jito_slot 0) 1050000000 102)) in
  let r2 := ret_or (mkReceipt s0 [] None)
              (step OverflowChecks (post r1) (UpdatePosition 1 (jito_slot 0) 1050000000 103)) in
  positions s0 !! jito_slot 0 = Some p /\
  step OverflowChecks s0 (UpdatePosition 1 (jito_slot 0) 1050000000 102) = Ret r1 /\
  step OverflowChecks (post r1) (UpdatePosition 1 (jito_slot 0) 1050000000 103) = Ret r2 /\
  exists p2, positions (post r2) !! jito_slot 0 = Some p2 /\
    Position.accumulated_yield p2 = 100000000.
Proof.
  intros s0 p r1 r2.
  assert (H1 : positions s0 !! jito_slot 0 = Some p) by (vm_compute; reflexivity).
  assert (H2 : step OverflowChecks s0 (UpdatePosition 1 (jito_slot 0) 1050000000 102) = Ret r1)
    by (vm_compute; reflexivity).
  assert (H3 : step OverflowChecks (post r1)
                 (UpdatePosition 1 (jito_slot 0) 1050000000 103) = Ret r2)
    by (vm_compute; reflexivity).
  split; [exact H1|]. split; [exact H2|]. split; [exact H3|].
  destruct (update_twice_accrues_twice _ _ _ _ _ _ _ _ _ H1 H2 H3) as (p2 & Hp2 & Hy).
  exists p2. split; [exact Hp2|]. rewrite Hy. vm_compute. reflexivity.
Defined.

End Molusco.
